(** * The feature-flag registry of [features/features.go]

    A shallow embedding of the package [features]: the closed vocabulary of
    [FeatureFlag] constants, the three package-level maps ([features],
    [initial], [nameToFeature]) and the operations [init], [Set], [Enabled]
    and [Reset], followed by the properties of the registry.

    Go's [range] over a map visits every entry exactly once, in an order the
    language leaves unspecified.  Each loop of the package is therefore a
    left fold over an explicit iteration order, and every statement
    quantifies over all orders that [range] may produce. *)

From stdpp Require Import gmap strings list fin_maps pretty.

Local Open Scope string_scope.
Local Open Scope Z_scope.

(** ** Go maps *)

(** [type FeatureFlag int]: no arithmetic is ever performed on a flag, so the
    integer is kept as a [Z]. *)
Abbreviation FeatureFlag := Z (only parsing).

(** An iteration order that [for k, v := range m] may follow: the entries of
    [m], each exactly once, in any order. *)
Definition range_of {K V} `{Countable K}
    (m : gmap K V) (order : list (K * V)) : Prop :=
  order ≡ₚ map_to_list m.

(** [m[k]] in an expression: the zero value [false] when [k] is absent. *)
Definition index (m : gmap Z bool) (k : Z) : bool :=
  default false (m !! k).

(** [m[k] = v] for one entry of a loop. *)
Definition assign {K V} `{Countable K} (m : gmap K V) (kv : K * V) : gmap K V :=
  <[kv.1 := kv.2]> m.

(** [strings.Join]. *)
Fixpoint Join (elems : list string) (sep : string) : string :=
  match elems with
  | [] => ""
  | s :: rest =>
      match rest with
      | [] => s
      | _ :: _ => s +:+ sep +:+ Join rest sep
      end
  end.

(** The result of a call that may panic. *)
Inductive outcome (A : Type) : Type :=
  | Returns (a : A)
  | Panics (msg : string).
Arguments Returns {A} a.
Arguments Panics {A} msg.

(** ** The vocabulary (lines 13-68) *)

Definition unused : FeatureFlag := 0.
Definition CAAValidationMethods : FeatureFlag := 1.
Definition CAAAccountURI : FeatureFlag := 2.
Definition EnforceMultiVA : FeatureFlag := 3.
Definition MultiVAFullResults : FeatureFlag := 4.
Definition MandatoryPOSTAsGET : FeatureFlag := 5.
Definition ECDSAForAll : FeatureFlag := 6.
Definition ServeRenewalInfo : FeatureFlag := 7.
Definition AllowReRevocation : FeatureFlag := 8.
Definition MozRevocationReasons : FeatureFlag := 9.
Definition OldTLSOutbound : FeatureFlag := 10.
Definition OldTLSInbound : FeatureFlag := 11.
Definition SHA1CSRs : FeatureFlag := 12.
Definition AllowUnrecognizedFeatures : FeatureFlag := 13.

(** The constants of the [const] block, in declaration order. *)
Definition vocabulary : list FeatureFlag :=
  [ unused; CAAValidationMethods; CAAAccountURI; EnforceMultiVA;
    MultiVAFullResults; MandatoryPOSTAsGET; ECDSAForAll; ServeRenewalInfo;
    AllowReRevocation; MozRevocationReasons; OldTLSOutbound; OldTLSInbound;
    SHA1CSRs; AllowUnrecognizedFeatures ].

(** Modelled from the spec: the method [FeatureFlag.String] is produced by
    [go:generate stringer -type=FeatureFlag] (line 1) into a file that is not
    part of the sources.  The spec asks for the canonical name of every
    identifier, one name per identifier; stringer uses the name of the
    constant, and prints a value outside the [const] block as
    [FeatureFlag(<decimal>)]. *)
Definition FeatureFlag_names : list string :=
  [ "unused"; "CAAValidationMethods"; "CAAAccountURI"; "EnforceMultiVA";
    "MultiVAFullResults"; "MandatoryPOSTAsGET"; "ECDSAForAll";
    "ServeRenewalInfo"; "AllowReRevocation"; "MozRevocationReasons";
    "OldTLSOutbound"; "OldTLSInbound"; "SHA1CSRs";
    "AllowUnrecognizedFeatures" ].

Definition FeatureFlag_String (i : FeatureFlag) : string :=
  if bool_decide (i < 0 ∨ Z.of_nat (length FeatureFlag_names) ≤ i)
  then "FeatureFlag(" +:+ pretty i +:+ ")"
  else default "" (FeatureFlag_names !! Z.to_nat i).

(** ** Package state (lines 70-92) *)

(** The three package-level maps.  The mutex [fMu] only serialises the
    calls; a sequential run of the operations is what it guarantees. *)
Record registry : Type := Registry {
  features : gmap Z bool;
  initial : gmap Z bool;
  nameToFeature : gmap string Z
}.

(** The composite literal of [var features] (lines 71-86). *)
Definition features_literal : gmap Z bool :=
  list_to_map
    [ (unused, false);
      (CAAValidationMethods, false);
      (CAAAccountURI, false);
      (EnforceMultiVA, false);
      (MultiVAFullResults, false);
      (MandatoryPOSTAsGET, false);
      (ECDSAForAll, false);
      (ServeRenewalInfo, false);
      (AllowReRevocation, false);
      (MozRevocationReasons, false);
      (OldTLSOutbound, true);
      (OldTLSInbound, true);
      (SHA1CSRs, true);
      (AllowUnrecognizedFeatures, false) ].

(** The package variables as their initialisers leave them, before [init]
    runs: [initial] and [nameToFeature] are empty. *)
Definition package_vars : registry :=
  {| features := features_literal; initial := ∅; nameToFeature := ∅ |}.

Definition with_features (m : gmap Z bool) (st : registry) : registry :=
  {| features := m; initial := initial st; nameToFeature := nameToFeature st |}.

(** ** [init] (lines 94-99) *)

Definition init_body (st : registry) (fv : FeatureFlag * bool) : registry :=
  {| features := features st;
     initial := assign (initial st) fv;
     nameToFeature := assign (nameToFeature st) (FeatureFlag_String fv.1, fv.1) |}.

Definition init (order : list (FeatureFlag * bool)) (st : registry) : registry :=
  foldl init_body st order.

(** ** [Set] (lines 105-122) *)

(** One iteration of the loop: the registry and the slice [unknown]. *)
Definition Set_body (acc : registry * list string) (nv : string * bool)
    : registry * list string :=
  match nameToFeature acc.1 !! nv.1 with
  | Some f => (with_features (assign (features acc.1) (f, nv.2)) acc.1, acc.2)
  | None => (acc.1, (acc.2 ++ [nv.1])%list)
  end.

Definition Set_loop (order : list (string * bool)) (st : registry)
    : registry * list string :=
  foldl Set_body (st, []) order.

(** The returned [error]: [None] is [nil], [Some msg] an error whose text is
    [msg]. *)
Definition Set_ (order : list (string * bool)) (st : registry)
    : registry * option string :=
  let (st', unknown) := Set_loop order st in
  if (0 <? length unknown)%nat && negb (index (features st') AllowUnrecognizedFeatures)
  then (st', Some ("unrecognized feature flag names: " +:+ Join unknown ", "))
  else (st', None).

(** ** [Enabled] (lines 127-135) *)

(** [Enabled] only reads the registry, so it yields no new state. *)
Definition Enabled (n : FeatureFlag) (st : registry) : outcome bool :=
  match features st !! n with
  | Some v => Returns v
  | None => Panics ("feature '" +:+ FeatureFlag_String n +:+ "' doesn't exist")
  end.

(** ** [Reset] (lines 138-144) *)

Definition Reset (order : list (FeatureFlag * bool)) (st : registry) : registry :=
  with_features (foldl assign (features st) order) st.

(** ** Runs of the package *)

(** The registry states a program can observe: [init] has run once, followed
    by any number of [Set] and [Reset] calls, each ranging over its map in
    some order. *)
Inductive reachable : registry → Prop :=
  | reachable_init order :
      range_of features_literal order →
      reachable (init order package_vars)
  | reachable_Set st featureSet order :
      reachable st →
      range_of featureSet order →
      reachable (Set_ order st).1
  | reachable_Reset st order :
      reachable st →
      range_of (initial st) order →
      reachable (Reset order st).

(** A [Set] call: the argument map and the order its [range] follows. *)
Definition call : Type := gmap string bool * list (string * bool).

Definition Set_calls (calls : list call) (st : registry) : registry :=
  foldl (λ s c, (Set_ c.2 s).1) st calls.

(** ** The lookup table built by [init] *)

(** The pair [init] stores in [nameToFeature] for an entry of [features]. *)
Definition name_entry (fv : FeatureFlag * bool) : string * FeatureFlag :=
  (FeatureFlag_String fv.1, fv.1).

(** The table once [init] has run: every constant under its own name. *)
Definition name_table : gmap string FeatureFlag :=
  list_to_map ((λ f, (FeatureFlag_String f, f)) <$> vocabulary).

(** ** The loop of [Set], in closed form *)

(** The assignments the loop performs: the entries whose name the table
    resolves, under the flag they resolve to. *)
Definition resolved (tbl : gmap string FeatureFlag) (order : list (string * bool))
    : list (FeatureFlag * bool) :=
  omap (λ nv, (λ f, (f, nv.2)) <$> tbl !! nv.1) order.

(** The names the loop appends to [unknown], in the order it meets them. *)
Definition unresolved (tbl : gmap string FeatureFlag) (order : list (string * bool))
    : list string :=
  filter (λ n, tbl !! n = None) order.*1.

(** ** Invariants of the reachable registries *)

(** What every reachable registry satisfies: [initial] is the snapshot of
    the declared defaults, [nameToFeature] is the table of canonical names,
    and [features] has one entry per constant. *)
Record registry_inv (st : registry) : Prop := RegistryInv {
  inv_initial : initial st = features_literal;
  inv_names : nameToFeature st = name_table;
  inv_dom : dom (features st) = list_to_set vocabulary
}.

(** ** Registries and arguments for the examples *)

(** A registry right after start-up, for the examples. *)
Definition registry0 : registry :=
  init (map_to_list features_literal) package_vars.

(** A call naming one known flag and two unknown ones. *)
Definition mixed_call : gmap string bool :=
  {[ "ECDSAForAll" := true; "bogus" := true; "nope" := false ]}.

(** A call that turns the check off and names unknown flags. *)
Definition lenient_call : gmap string bool :=
  {[ "bogus" := true; "AllowUnrecognizedFeatures" := true; "nope" := false ]}.

(** * Lemmas *)

(** ** Sanity checks on concrete runs *)

Example String_in_range :
  FeatureFlag_String AllowUnrecognizedFeatures = "AllowUnrecognizedFeatures".
Proof. reflexivity. Qed.

Example String_out_of_range : FeatureFlag_String 14 = "FeatureFlag(14)".
Proof. reflexivity. Qed.

Example String_negative : FeatureFlag_String (-1) = "FeatureFlag(-1)".
Proof. reflexivity. Qed.

Example Join_three : Join ["a"; "b"; "c"] ", " = "a, b, c".
Proof. reflexivity. Qed.

Example partial_apply_run :
  let st := init (map_to_list features_literal) package_vars in
  let r := Set_ [("ECDSAForAll", true); ("bogus", true); ("nope", false)] st in
  r.2 = Some "unrecognized feature flag names: bogus, nope"
  ∧ Enabled ECDSAForAll r.1 = Returns true.
Proof. vm_compute. done. Qed.

Example unknown_flag_run :
  Enabled 14 (init (map_to_list features_literal) package_vars)
  = Panics "feature 'FeatureFlag(14)' doesn't exist".
Proof. vm_compute. done. Qed.

(** ** Loops over a map as folds *)

Section range_loops.
Context {K V : Type} `{Countable K}.
Implicit Types (m : gmap K V) (l : list (K * V)).

(** A loop of assignments leaves the map of its entries, later entries
    over earlier ones, laid over the map it started from. *)
Lemma foldl_assign m0 l :
  foldl assign m0 l = list_to_map (reverse l) ∪ m0.
Proof.
  induction l as [|kv l IH] using rev_ind.
  - cbn. by rewrite (left_id_L ∅ (∪)).
  - rewrite foldl_app, reverse_app. cbn. rewrite IH.
    unfold assign. by rewrite insert_union_l.
Qed.

Lemma foldl_assign_notin m0 l k :
  k ∉ l.*1 → foldl assign m0 l !! k = m0 !! k.
Proof.
  intros Hk. rewrite foldl_assign. apply lookup_union_r.
  apply not_elem_of_list_to_map_1.
  by rewrite fmap_reverse, elem_of_reverse.
Qed.

(** When every entry for [k] carries the value [v], whichever comes last
    leaves [v]. *)
Lemma foldl_assign_agree m0 l k v :
  (k, v) ∈ l → (∀ v', (k, v') ∈ l → v' = v) →
  foldl assign m0 l !! k = Some v.
Proof.
  intros Hin Hagree. rewrite foldl_assign. apply lookup_union_Some_l.
  destruct (list_to_map (reverse l) !! k) as [v'|] eqn:Hl.
  - apply elem_of_list_to_map_2 in Hl.
    rewrite elem_of_reverse in Hl. by rewrite (Hagree v' Hl).
  - apply not_elem_of_list_to_map_2 in Hl. exfalso. apply Hl.
    rewrite fmap_reverse, elem_of_reverse.
    by apply (list_elem_of_fmap_2 fst _ (k, v)).
Qed.

Lemma foldl_assign_dom m0 l :
  dom (foldl assign m0 l) = list_to_set l.*1 ∪ dom m0.
Proof.
  rewrite foldl_assign, dom_union_L, dom_list_to_map_L. f_equal.
  apply set_eq. intros k.
  by rewrite !elem_of_list_to_set, fmap_reverse, elem_of_reverse.
Qed.

Lemma range_of_NoDup m l : range_of m l → NoDup l.*1.
Proof. intros ->. apply NoDup_fst_map_to_list. Qed.

Lemma range_of_elem_of m l k v : range_of m l → (k, v) ∈ l ↔ m !! k = Some v.
Proof. intros ->. apply elem_of_map_to_list. Qed.

Lemma range_of_keys m l k : range_of m l → k ∈ l.*1 ↔ k ∈ dom m.
Proof.
  intros Hl. rewrite elem_of_dom, list_elem_of_fmap. split.
  - intros ([k' v] & -> & Hin). exists v. by apply (range_of_elem_of m l).
  - intros [v Hv]. exists (k, v). split; [done|].
    by apply (range_of_elem_of m l).
Qed.

(** Ranging over [m] and assigning each entry is [m] laid over the
    target, whatever the order. *)
Lemma foldl_assign_range m m0 l :
  range_of m l → foldl assign m0 l = m ∪ m0.
Proof.
  intros Hl. rewrite foldl_assign. f_equal.
  rewrite <-(list_to_map_to_list m). apply list_to_map_proper.
  - rewrite fmap_reverse, reverse_Permutation. by eapply range_of_NoDup.
  - by rewrite reverse_Permutation.
Qed.
End range_loops.

(** ** The vocabulary and its names *)

Lemma vocabulary_dom : dom features_literal = list_to_set vocabulary.
Proof. by vm_compute. Qed.

Lemma vocabulary_lookup F : F ∈ vocabulary ↔ is_Some (features_literal !! F).
Proof. by rewrite <-elem_of_dom, vocabulary_dom, elem_of_list_to_set. Qed.

Lemma vocabulary_range F : F ∈ vocabulary ↔ 0 ≤ F < 14.
Proof.
  unfold vocabulary, unused, CAAValidationMethods, CAAAccountURI,
    EnforceMultiVA, MultiVAFullResults, MandatoryPOSTAsGET, ECDSAForAll,
    ServeRenewalInfo, AllowReRevocation, MozRevocationReasons, OldTLSOutbound,
    OldTLSInbound, SHA1CSRs, AllowUnrecognizedFeatures.
  rewrite !elem_of_cons, elem_of_nil. lia.
Qed.

Lemma names_NoDup :
  NoDup ((λ f, (FeatureFlag_String f, f)) <$> vocabulary).*1.
Proof. apply (bool_decide_unpack _). by vm_compute. Qed.

Lemma name_table_lookup n f :
  name_table !! n = Some f ↔ f ∈ vocabulary ∧ n = FeatureFlag_String f.
Proof.
  unfold name_table. rewrite <-elem_of_list_to_map by apply names_NoDup.
  rewrite list_elem_of_fmap. split.
  - intros (f' & [= -> ->] & Hin). done.
  - intros [Hin ->]. by exists f.
Qed.

Lemma name_table_self f :
  f ∈ vocabulary → name_table !! FeatureFlag_String f = Some f.
Proof. intros. by apply name_table_lookup. Qed.

Lemma init_unfold order st :
  init order st =
  {| features := features st;
     initial := foldl assign (initial st) order;
     nameToFeature := foldl assign (nameToFeature st) (name_entry <$> order) |}.
Proof.
  unfold init. revert st. induction order as [|fv order IH]; intros st.
  - by destruct st.
  - cbn. by rewrite IH.
Qed.

Lemma name_table_literal :
  list_to_map (name_entry <$> map_to_list features_literal) = name_table.
Proof. apply (bool_decide_unpack _). by vm_compute. Qed.

(** [init] leaves the same registry whatever order its loop follows. *)
Lemma init_package_vars order :
  range_of features_literal order →
  init order package_vars =
  {| features := features_literal;
     initial := features_literal;
     nameToFeature := name_table |}.
Proof.
  intros Horder. rewrite init_unfold.
  unfold package_vars. cbn [features initial nameToFeature]. f_equal.
  - rewrite (foldl_assign_range features_literal) by done.
    by rewrite (right_id_L ∅ (∪)).
  - rewrite foldl_assign, (right_id_L ∅ (∪)).
    rewrite <-name_table_literal. apply list_to_map_proper.
    + rewrite fmap_reverse, reverse_Permutation, Horder.
      apply (bool_decide_unpack _). by vm_compute.
    + by rewrite reverse_Permutation, Horder.
Qed.

(** ** The loop of [Set] *)

Lemma Set_body_fold order st acc :
  foldl Set_body (st, acc) order =
  (with_features
     (foldl assign (features st) (resolved (nameToFeature st) order)) st,
   (acc ++ unresolved (nameToFeature st) order)%list).
Proof.
  revert st acc. induction order as [|[n v] order IH]; intros st acc.
  - cbn. rewrite (right_id_L [] (++)%list). by destruct st.
  - cbn.
    change (Set_body (st, acc) (n, v)) with
      (match nameToFeature st !! n with
       | Some f => (with_features (assign (features st) (f, v)) st, acc)
       | None => (st, (acc ++ [n])%list)
       end).
    destruct (nameToFeature st !! n) as [f|] eqn:Hn; rewrite IH; cbn.
    + by rewrite decide_False.
    + by rewrite decide_True, <-(assoc_L (++)%list).
Qed.

Lemma Set_loop_unfold order st :
  Set_loop order st =
  (with_features
     (foldl assign (features st) (resolved (nameToFeature st) order)) st,
   unresolved (nameToFeature st) order).
Proof. unfold Set_loop. by rewrite Set_body_fold. Qed.

(** The registry after [Set], whether or not it reports an error. *)
Lemma Set_fst order st :
  (Set_ order st).1 =
  with_features
    (foldl assign (features st) (resolved (nameToFeature st) order)) st.
Proof.
  unfold Set_. rewrite Set_loop_unfold.
  by destruct (_ && _).
Qed.

(** The error of [Set], in terms of the loop's results. *)
Lemma Set_snd order st :
  (Set_ order st).2 =
  if (0 <? length (unresolved (nameToFeature st) order))%nat
     && negb (index (features (Set_ order st).1) AllowUnrecognizedFeatures)
  then Some ("unrecognized feature flag names: "
             +:+ Join (unresolved (nameToFeature st) order) ", ")
  else None.
Proof.
  rewrite Set_fst. unfold Set_. rewrite Set_loop_unfold.
  by destruct (_ && _).
Qed.

Lemma elem_of_resolved tbl order f v :
  (f, v) ∈ resolved tbl order ↔ ∃ n, (n, v) ∈ order ∧ tbl !! n = Some f.
Proof.
  unfold resolved. rewrite list_elem_of_omap. split.
  - intros ([n w] & Hin & Hf). cbn in Hf.
    destruct (tbl !! n) as [g|] eqn:Hn; simplify_eq/=. eauto.
  - intros (n & Hin & Hn). exists (n, v). split; [done|]. cbn. by rewrite Hn.
Qed.

Lemma elem_of_unresolved tbl order n :
  n ∈ unresolved tbl order ↔ n ∈ order.*1 ∧ tbl !! n = None.
Proof. unfold unresolved. rewrite list_elem_of_filter. tauto. Qed.

Lemma unresolved_NoDup tbl order : NoDup order.*1 → NoDup (unresolved tbl order).
Proof. apply NoDup_filter. Qed.

(** ** Reachable registries *)

Lemma resolved_keys_vocabulary order :
  list_to_set (C := gset Z) (resolved name_table order).*1 ⊆ list_to_set vocabulary.
Proof.
  intros f. rewrite !elem_of_list_to_set, list_elem_of_fmap.
  intros ([g v] & -> & Hin). cbn.
  apply elem_of_resolved in Hin as (n & _ & Hn).
  by apply name_table_lookup in Hn as [? _].
Qed.

Lemma reachable_inv st : reachable st → registry_inv st.
Proof.
  induction 1 as [order Horder|st featureSet order _ [Hi Hn Hd] Horder
                 |st order _ [Hi Hn Hd] Horder].
  - rewrite init_package_vars by done.
    split; cbn; [done|done|apply vocabulary_dom].
  - rewrite Set_fst. split; cbn; [done|done|].
    rewrite foldl_assign_dom, Hd, Hn.
    apply subseteq_union_1_L, resolved_keys_vocabulary.
  - unfold Reset. split; cbn; [done|done|].
    rewrite (foldl_assign_range (initial st)) by done.
    rewrite dom_union_L, Hd, Hi, vocabulary_dom. apply (idemp_L (∪)).
Qed.

Lemma Set_calls_reachable calls st :
  reachable st → Forall (λ c : call, range_of c.1 c.2) calls →
  reachable (Set_calls calls st).
Proof.
  intros Hst Hcalls. revert st Hst.
  induction Hcalls as [|[featureSet order] calls Hc _ IH]; intros st Hst.
  - done.
  - cbn. apply IH. by apply (reachable_Set st featureSet).
Qed.

Lemma unresolved_nonempty (tbl : gmap string FeatureFlag)
    (featureSet : gmap string bool) order :
  range_of featureSet order →
  (0 <? length (unresolved tbl order))%nat = true
  ↔ ∃ n, n ∈ dom featureSet ∧ tbl !! n = None.
Proof.
  intros Horder. rewrite Nat.ltb_lt. split.
  - destruct (unresolved tbl order) as [|n l] eqn:Hu; cbn; [lia|]. intros _.
    assert (n ∈ unresolved tbl order) as Hn by (rewrite Hu; left).
    apply elem_of_unresolved in Hn as [Hn ?]. exists n. split; [|done].
    by apply (range_of_keys featureSet order).
  - intros (n & Hn & Hnone).
    assert (n ∈ unresolved tbl order) as Hin.
    { apply elem_of_unresolved. split; [|done].
      by apply (range_of_keys featureSet order). }
    destruct (unresolved tbl order); [by apply elem_of_nil in Hin|cbn; lia].
Qed.

(** In a reachable registry an entry of the argument whose name resolves is
    the only entry assigned to its flag. *)
Lemma Set_writes st (featureSet : gmap string bool) order n v f :
  reachable st → range_of featureSet order →
  featureSet !! n = Some v → nameToFeature st !! n = Some f →
  features (Set_ order st).1 !! f = Some v.
Proof.
  intros Hst Horder Hv Hf. rewrite Set_fst. cbn.
  destruct (reachable_inv st Hst) as [_ Hn _]. rewrite Hn in *.
  apply foldl_assign_agree.
  - apply elem_of_resolved. exists n. split; [|done].
    by apply (range_of_elem_of featureSet order).
  - intros v' (n' & Hin & Hf')%elem_of_resolved.
    apply name_table_lookup in Hf as [_ ->], Hf' as [_ ->].
    apply (range_of_elem_of featureSet order) in Hin; [|done]. congruence.
Qed.

(** In a reachable registry the loop of [Set] assigns only to flags whose
    canonical name is a key of the argument. *)
Lemma Set_untouched st (featureSet : gmap string bool) order F :
  reachable st → range_of featureSet order →
  FeatureFlag_String F ∉ dom featureSet →
  features (Set_ order st).1 !! F = features st !! F.
Proof.
  intros Hst Horder HF. rewrite Set_fst. cbn.
  destruct (reachable_inv st Hst) as [_ Hn _]. rewrite Hn.
  apply foldl_assign_notin. rewrite list_elem_of_fmap.
  intros ([g v] & -> & (n & Hin & Hg)%elem_of_resolved). cbn in HF.
  apply name_table_lookup in Hg as [_ ->]. apply HF.
  apply (range_of_keys featureSet order); [done|].
  by apply (list_elem_of_fmap_2 fst _ (_, v)).
Qed.

Lemma Reset_features st order :
  range_of (initial st) order →
  features (Reset order st) = initial st ∪ features st.
Proof. intros Horder. unfold Reset. cbn. by apply foldl_assign_range. Qed.

Lemma range_of_map_to_list {K V} `{Countable K} (m : gmap K V) :
  range_of m (map_to_list m).
Proof. unfold range_of. reflexivity. Qed.

Lemma registry0_reachable : reachable registry0.
Proof. apply reachable_init, range_of_map_to_list. Qed.

(** * Properties of the registry *)

(** C1: for every argument of [Set] and every order its loop may follow,
    [Set] returns an error exactly when some name of the argument is not in
    the lookup table and [AllowUnrecognizedFeatures] reads false once the
    loop is over; hence with no unknown name, or with the flag true at that
    point, it returns [nil]. *)
Theorem Set_error_iff (st : registry) (featureSet : gmap string bool) order :
  range_of featureSet order →
  (is_Some (Set_ order st).2
   ↔ (∃ n, n ∈ dom featureSet ∧ nameToFeature st !! n = None)
     ∧ index (features (Set_ order st).1) AllowUnrecognizedFeatures = false)
  ∧ ((¬ (∃ n, n ∈ dom featureSet ∧ nameToFeature st !! n = None)
      ∨ index (features (Set_ order st).1) AllowUnrecognizedFeatures = true)
     → (Set_ order st).2 = None).
Proof.
  intros Horder. rewrite Set_snd.
  rewrite <-(unresolved_nonempty (nameToFeature st) featureSet order Horder).
  destruct (0 <? length (unresolved (nameToFeature st) order))%nat,
    (index (features (Set_ order st).1) AllowUnrecognizedFeatures); cbn.
  all: rewrite <-not_eq_None_Some; intuition congruence.
Qed.

Lemma Set_error_iff_witness :
  is_Some (Set_ [("bogus", true)] registry0).2
  ↔ (∃ n, n ∈ dom ({["bogus" := true]} : gmap string bool)
          ∧ nameToFeature registry0 !! n = None)
    ∧ index (features (Set_ [("bogus", true)] registry0).1)
        AllowUnrecognizedFeatures = false.
Proof.
  apply (proj1 (Set_error_iff registry0 {["bogus" := true]} [("bogus", true)]
                  (reflexivity _))).
Defined.

(** C2: in a reachable registry, every entry of the argument whose name
    resolves to a flag is stored in [features] under that flag, whether or
    not the call returns an error; and an error, when returned, is the join
    of a list that holds each unresolved name of the argument exactly
    once. *)
Theorem Set_partial_apply_reports_all
    (st : registry) (featureSet : gmap string bool) order :
  reachable st → range_of featureSet order →
  (∀ n v f, featureSet !! n = Some v → nameToFeature st !! n = Some f →
     features (Set_ order st).1 !! f = Some v)
  ∧ (∀ msg, (Set_ order st).2 = Some msg →
     ∃ unknown,
       msg = "unrecognized feature flag names: " +:+ Join unknown ", "
       ∧ NoDup unknown
       ∧ ∀ n, n ∈ unknown
              ↔ n ∈ dom featureSet ∧ nameToFeature st !! n = None).
Proof.
  intros Hst Horder. split.
  - intros n v f. by apply Set_writes.
  - intros msg. rewrite Set_snd.
    destruct (_ && _); [|done]. intros [= <-].
    exists (unresolved (nameToFeature st) order). split; [done|]. split.
    + by eapply unresolved_NoDup, range_of_NoDup.
    + intros n. rewrite elem_of_unresolved.
      by rewrite (range_of_keys featureSet order).
Qed.

Lemma Set_partial_apply_reports_all_witness :
  (∀ n v f, mixed_call !! n = Some v → nameToFeature registry0 !! n = Some f →
     features (Set_ (map_to_list mixed_call) registry0).1 !! f = Some v)
  ∧ (∀ msg, (Set_ (map_to_list mixed_call) registry0).2 = Some msg →
     ∃ unknown,
       msg = "unrecognized feature flag names: " +:+ Join unknown ", "
       ∧ NoDup unknown
       ∧ ∀ n, n ∈ unknown
              ↔ n ∈ dom mixed_call ∧ nameToFeature registry0 !! n = None).
Proof.
  apply (Set_partial_apply_reports_all registry0 mixed_call).
  - apply registry0_reachable.
  - apply range_of_map_to_list.
Defined.

(** C3: in a reachable registry, for every flag [F] of the vocabulary and
    every boolean [b], [Set] of the one-entry map from the name of [F] to
    [b] followed by [Enabled F] returns [b]. *)
Theorem Set_then_Enabled (st : registry) (F : FeatureFlag) (b : bool) order :
  reachable st → F ∈ vocabulary →
  range_of {[ FeatureFlag_String F := b ]} order →
  Enabled F (Set_ order st).1 = Returns b.
Proof.
  intros Hst HF Horder. unfold Enabled.
  rewrite (Set_writes st {[ FeatureFlag_String F := b ]} order
             (FeatureFlag_String F) b F); try done.
  - apply lookup_singleton_eq.
  - destruct (reachable_inv st Hst) as [_ -> _]. by apply name_table_self.
Qed.

Lemma Set_then_Enabled_witness :
  Enabled OldTLSInbound (Set_ [("OldTLSInbound", false)] registry0).1
  = Returns false.
Proof.
  apply (Set_then_Enabled registry0 OldTLSInbound false).
  - apply registry0_reachable.
  - apply vocabulary_range. unfold OldTLSInbound. lia.
  - unfold range_of. by rewrite map_to_list_singleton.
Defined.

(** C4: after [init] and any finite sequence of [Set] calls, whatever their
    arguments, [Reset] followed by [Enabled F] returns the default that the
    [features] literal declares for [F], for every flag [F] of the
    vocabulary, named in one of the calls or not. *)
Theorem Reset_restores_defaults
    (init_order : list (FeatureFlag * bool)) (calls : list call)
    (reset_order : list (FeatureFlag * bool)) (F : FeatureFlag) :
  let st := Set_calls calls (init init_order package_vars) in
  range_of features_literal init_order →
  Forall (λ c : call, range_of c.1 c.2) calls →
  range_of (initial st) reset_order →
  F ∈ vocabulary →
  ∃ d, features_literal !! F = Some d
       ∧ Enabled F (Reset reset_order st) = Returns d.
Proof.
  intros st Hinit Hcalls Hreset [d Hd]%vocabulary_lookup.
  assert (reachable st) as Hst
    by (by apply Set_calls_reachable; [apply reachable_init|]).
  exists d. split; [done|]. unfold Enabled.
  rewrite Reset_features by done.
  destruct (reachable_inv st Hst) as [-> _ _].
  by rewrite (lookup_union_Some_l _ _ _ d).
Qed.

Lemma Reset_restores_defaults_witness :
  ∃ d, features_literal !! SHA1CSRs = Some d
       ∧ Enabled SHA1CSRs
           (Reset (map_to_list features_literal)
              (Set_calls
                 [ (mixed_call, map_to_list mixed_call);
                   ({[ "SHA1CSRs" := false ]}, [("SHA1CSRs", false)]) ]
                 (init (map_to_list features_literal) package_vars)))
         = Returns d.
Proof.
  apply (Reset_restores_defaults (map_to_list features_literal)
           [ (mixed_call, map_to_list mixed_call);
             ({[ "SHA1CSRs" := false ]}, [("SHA1CSRs", false)]) ]
           (map_to_list features_literal) SHA1CSRs).
  - apply range_of_map_to_list.
  - apply Forall_cons_2; [apply range_of_map_to_list|].
    apply Forall_cons_2; [|apply Forall_nil_2].
    unfold range_of. cbn. by rewrite map_to_list_singleton.
  - unfold range_of. by vm_compute.
  - apply vocabulary_range. unfold SHA1CSRs. lia.
Defined.

(** C5: right after [init], before any [Set], [Enabled F] returns the
    default declared for [F], for every flag [F] of the vocabulary: [true]
    for [OldTLSOutbound], [OldTLSInbound] and [SHA1CSRs], [false] for every
    other flag. *)
Theorem Enabled_after_init (order : list (FeatureFlag * bool)) (F : FeatureFlag) :
  range_of features_literal order → F ∈ vocabulary →
  ∃ d, features_literal !! F = Some d
       ∧ Enabled F (init order package_vars) = Returns d
       ∧ d = bool_decide (F ∈ [OldTLSOutbound; OldTLSInbound; SHA1CSRs]).
Proof.
  intros Horder HF. rewrite init_package_vars by done. unfold Enabled. cbn.
  unfold vocabulary in HF. rewrite !elem_of_cons, elem_of_nil in HF.
  destruct HF as [->|[->|[->|[->|[->|[->|[->|[->|[->|[->|[->|[->|[->|[->|[]]]]]]]]]]]]]]];
    eexists; (split; [reflexivity|]); split; reflexivity.
Qed.

Lemma Enabled_after_init_witness :
  ∃ d, features_literal !! OldTLSOutbound = Some d
       ∧ Enabled OldTLSOutbound (init (map_to_list features_literal) package_vars)
         = Returns d
       ∧ d = bool_decide
               (OldTLSOutbound ∈ [OldTLSOutbound; OldTLSInbound; SHA1CSRs]).
Proof.
  apply (Enabled_after_init (map_to_list features_literal) OldTLSOutbound).
  - apply range_of_map_to_list.
  - apply vocabulary_range. unfold OldTLSOutbound. lia.
Defined.

(** C6: in a reachable registry, [Enabled] called with a value outside the
    vocabulary panics, returning no boolean; called with a flag of the
    vocabulary it does not panic and returns the value [features] holds for
    that flag. *)
Theorem Enabled_panics_outside_vocabulary (st : registry) (F : FeatureFlag) :
  reachable st →
  (F ∉ vocabulary →
     Enabled F st
     = Panics ("feature '" +:+ FeatureFlag_String F +:+ "' doesn't exist"))
  ∧ (F ∈ vocabulary →
     ∃ v, features st !! F = Some v ∧ Enabled F st = Returns v).
Proof.
  intros Hst. destruct (reachable_inv st Hst) as [_ _ Hdom].
  unfold Enabled. split; intros HF.
  - assert (features st !! F = None) as ->; [|done].
    apply not_elem_of_dom. by rewrite Hdom, elem_of_list_to_set.
  - assert (is_Some (features st !! F)) as [v Hv].
    { apply elem_of_dom. by rewrite Hdom, elem_of_list_to_set. }
    exists v. by rewrite Hv.
Qed.

Lemma Enabled_panics_outside_vocabulary_witness :
  Enabled 14 registry0 = Panics "feature 'FeatureFlag(14)' doesn't exist".
Proof.
  apply (proj1 (Enabled_panics_outside_vocabulary registry0 14
                  registry0_reachable)).
  rewrite vocabulary_range. lia.
Defined.

(** C7: in every reachable registry [initial] is still the snapshot of the
    declared defaults that [init] took, and [features] has an entry for
    exactly the flags of the vocabulary; a further [Set] or [Reset], in
    whatever order it runs, leaves [initial] as it is.  ([Enabled] returns
    no registry: it has nothing to change.) *)
Theorem registry_invariants (st : registry) :
  reachable st →
  initial st = features_literal
  ∧ dom (features st) = list_to_set vocabulary
  ∧ (∀ F, F ∈ vocabulary ↔ is_Some (features st !! F))
  ∧ (∀ order, initial (Set_ order st).1 = initial st)
  ∧ (∀ order, initial (Reset order st) = initial st).
Proof.
  intros Hst. destruct (reachable_inv st Hst) as [Hi _ Hdom].
  split; [done|]. split; [done|]. split; [|split].
  - intros F. by rewrite <-elem_of_dom, Hdom, elem_of_list_to_set.
  - intros order. by rewrite Set_fst.
  - done.
Qed.

Lemma registry_invariants_witness :
  let st := (Set_ (map_to_list mixed_call) registry0).1 in
  initial st = features_literal
  ∧ dom (features st) = list_to_set vocabulary
  ∧ (∀ F, F ∈ vocabulary ↔ is_Some (features st !! F))
  ∧ (∀ order, initial (Set_ order st).1 = initial st)
  ∧ (∀ order, initial (Reset order st) = initial st).
Proof.
  apply (registry_invariants (Set_ (map_to_list mixed_call) registry0).1).
  apply (reachable_Set registry0 mixed_call).
  - apply registry0_reachable.
  - apply range_of_map_to_list.
Defined.

(** C8: from every reachable registry, [Reset] called twice in a row leaves
    the registry that a single [Reset] leaves, whatever order each call
    follows. *)
Theorem Reset_idempotent (st : registry) (order1 order2 : list (FeatureFlag * bool)) :
  reachable st →
  range_of (initial st) order1 →
  range_of (initial (Reset order1 st)) order2 →
  Reset order2 (Reset order1 st) = Reset order1 st
  ∧ features (Reset order2 (Reset order1 st)) = features (Reset order1 st).
Proof.
  intros _ H1 H2.
  assert (features (Reset order2 (Reset order1 st)) = features (Reset order1 st))
    as Hf.
  { rewrite (Reset_features (Reset order1 st)) by done.
    rewrite Reset_features by done. cbn.
    by rewrite (assoc_L (∪)), (idemp_L (∪)). }
  split; [|done].
  change (Reset order2 (Reset order1 st)) with
    (with_features (features (Reset order2 (Reset order1 st)))
       (Reset order1 st)).
  by rewrite Hf.
Qed.

Lemma Reset_idempotent_witness :
  let st := (Set_ (map_to_list mixed_call) registry0).1 in
  let order := map_to_list features_literal in
  Reset order (Reset order st) = Reset order st
  ∧ features (Reset order (Reset order st)) = features (Reset order st).
Proof.
  apply (Reset_idempotent (Set_ (map_to_list mixed_call) registry0).1).
  - apply (reachable_Set registry0 mixed_call).
    + apply registry0_reachable.
    + apply range_of_map_to_list.
  - unfold range_of. by vm_compute.
  - unfold range_of. by vm_compute.
Defined.

(** C9: in a reachable registry, a [Set] call whose argument maps the name
    of [AllowUnrecognizedFeatures] to [true] returns no error, whatever
    other names, known or unknown, the argument holds, whatever order the
    loop follows and whatever the flag was before the call: the test after
    the loop reads the value this same call has stored. *)
Theorem Set_allow_in_same_call
    (st : registry) (featureSet : gmap string bool) order :
  reachable st → range_of featureSet order →
  featureSet !! FeatureFlag_String AllowUnrecognizedFeatures = Some true →
  (Set_ order st).2 = None
  ∧ index (features (Set_ order st).1) AllowUnrecognizedFeatures = true.
Proof.
  intros Hst Horder Hallow.
  assert (index (features (Set_ order st).1) AllowUnrecognizedFeatures = true)
    as Hidx.
  { unfold index.
    rewrite (Set_writes st featureSet order
               (FeatureFlag_String AllowUnrecognizedFeatures) true
               AllowUnrecognizedFeatures); try done.
    destruct (reachable_inv st Hst) as [_ -> _].
    apply name_table_self, vocabulary_range.
    unfold AllowUnrecognizedFeatures. lia. }
  split; [|done].
  rewrite Set_snd, Hidx. by rewrite andb_false_r.
Qed.

Lemma Set_allow_in_same_call_witness :
  (Set_ (map_to_list lenient_call) registry0).2 = None
  ∧ index (features (Set_ (map_to_list lenient_call) registry0).1)
      AllowUnrecognizedFeatures = true.
Proof.
  apply (Set_allow_in_same_call registry0 lenient_call).
  - apply registry0_reachable.
  - apply range_of_map_to_list.
  - reflexivity.
Defined.

(** C10: in a reachable registry, [Set] leaves the entry of every flag whose
    canonical name is not a key of the argument as it was, and the set of
    flags that have an entry stays the same: a name the table does not
    resolve adds nothing to [features]. *)
Theorem Set_frame
    (st : registry) (featureSet : gmap string bool) order (F : FeatureFlag) :
  reachable st → range_of featureSet order →
  (FeatureFlag_String F ∉ dom featureSet →
     features (Set_ order st).1 !! F = features st !! F)
  ∧ dom (features (Set_ order st).1) = dom (features st).
Proof.
  intros Hst Horder. split.
  - by apply Set_untouched.
  - destruct (reachable_inv st Hst) as [_ _ ->].
    by destruct (reachable_inv _ (reachable_Set st featureSet order Hst Horder))
      as [_ _ ->].
Qed.

Lemma Set_frame_witness :
  features (Set_ (map_to_list mixed_call) registry0).1 !! SHA1CSRs
  = features registry0 !! SHA1CSRs.
Proof.
  apply (proj1 (Set_frame registry0 mixed_call (map_to_list mixed_call)
                  SHA1CSRs registry0_reachable
                  (range_of_map_to_list mixed_call))).
  apply (bool_decide_unpack _). by vm_compute.
Defined.

(** * Further properties of the package *)

(** ** Comparing registries *)

Lemma registry_eq (a b : registry) :
  features a = features b → initial a = initial b →
  nameToFeature a = nameToFeature b → a = b.
Proof. destruct a, b; cbn. by intros -> -> ->. Qed.

(** Two reachable registries differ at most in the values of the flags. *)
Lemma reachable_eq st1 st2 :
  reachable st1 → reachable st2 →
  (∀ F, F ∈ vocabulary → features st1 !! F = features st2 !! F) →
  st1 = st2.
Proof.
  intros [Hi1 Hn1 Hd1]%reachable_inv [Hi2 Hn2 Hd2]%reachable_inv Hf.
  apply registry_eq; [|congruence|congruence].
  apply map_eq. intros F.
  destruct (decide (F ∈ vocabulary)) as [HF|HF]; [by apply Hf|].
  transitivity (@None bool); [|symmetry].
  - apply not_elem_of_dom. by rewrite Hd1, elem_of_list_to_set.
  - apply not_elem_of_dom. by rewrite Hd2, elem_of_list_to_set.
Qed.

(** The value of a flag after [Set]: the one the argument gives under the
    flag's name, or else the one it had. *)
Lemma Set_lookup st (featureSet : gmap string bool) order F :
  reachable st → range_of featureSet order → F ∈ vocabulary →
  features (Set_ order st).1 !! F =
  match featureSet !! FeatureFlag_String F with
  | Some v => Some v
  | None => features st !! F
  end.
Proof.
  intros Hst Horder HF.
  destruct (featureSet !! FeatureFlag_String F) as [v|] eqn:Hv.
  - apply (Set_writes st featureSet order (FeatureFlag_String F)); try done.
    destruct (reachable_inv st Hst) as [_ -> _]. by apply name_table_self.
  - apply (Set_untouched st featureSet); try done. by apply not_elem_of_dom.
Qed.

Lemma unresolved_Permutation tbl (order1 order2 : list (string * bool)) :
  order1 ≡ₚ order2 → unresolved tbl order1 ≡ₚ unresolved tbl order2.
Proof. intros Hp. unfold unresolved. by rewrite Hp. Qed.

(** Whether [Set] fails depends on the argument and on the flags once the
    loop is over, not on the order of the loop. *)
Lemma Set_fails_iff st (featureSet : gmap string bool) order :
  range_of featureSet order →
  is_Some (Set_ order st).2
  ↔ (∃ n, n ∈ dom featureSet ∧ nameToFeature st !! n = None)
    ∧ index (features (Set_ order st).1) AllowUnrecognizedFeatures = false.
Proof.
  intros Horder. rewrite Set_snd.
  rewrite <-(unresolved_nonempty (nameToFeature st) featureSet order Horder).
  destruct (0 <? length (unresolved (nameToFeature st) order))%nat,
    (index (features (Set_ order st).1) AllowUnrecognizedFeatures); cbn.
  all: rewrite <-not_eq_None_Some; intuition congruence.
Qed.

Lemma AllowUnrecognizedFeatures_vocabulary :
  AllowUnrecognizedFeatures ∈ vocabulary.
Proof. apply vocabulary_range. unfold AllowUnrecognizedFeatures. lia. Qed.

(** A loop that assigns to each key the value it already has changes
    nothing. *)
Lemma foldl_assign_same {K V} `{Countable K} (m0 : gmap K V) (l : list (K * V)) :
  (∀ k v, (k, v) ∈ l → m0 !! k = Some v) → foldl assign m0 l = m0.
Proof.
  induction l as [|[k v] l IH]; intros Hl; [done|]. cbn [foldl].
  replace (assign m0 (k, v)) with m0
    by (symmetry; apply insert_id, Hl; left).
  apply IH. intros k' v' Hin. apply Hl. by right.
Qed.

(** ** [init] *)

(** X1: [init] leaves the same registry whatever order its loop follows
    over [features]: [features] is still the literal, and [initial] is a copy
    of it. *)
Theorem init_order_independent (order1 order2 : list (FeatureFlag * bool)) :
  range_of features_literal order1 → range_of features_literal order2 →
  init order1 package_vars = init order2 package_vars
  ∧ features (init order1 package_vars) = features_literal
  ∧ initial (init order1 package_vars) = features_literal.
Proof.
  intros H1 H2. rewrite !init_package_vars by done. done.
Qed.

Lemma init_order_independent_witness :
  init (map_to_list features_literal) package_vars
  = init (reverse (map_to_list features_literal)) package_vars
  ∧ features (init (map_to_list features_literal) package_vars)
    = features_literal
  ∧ initial (init (map_to_list features_literal) package_vars)
    = features_literal.
Proof.
  apply (init_order_independent (map_to_list features_literal)
           (reverse (map_to_list features_literal))).
  - apply range_of_map_to_list.
  - unfold range_of. apply reverse_Permutation.
Defined.

(** X2: in every reachable registry [nameToFeature] resolves a name to a
    flag exactly when the flag is one of the constants and the name is its
    [String]; [Set] and [Reset] never write the table. *)
Theorem nameToFeature_inverts_String (st : registry) :
  reachable st →
  (∀ n f, nameToFeature st !! n = Some f
          ↔ f ∈ vocabulary ∧ n = FeatureFlag_String f)
  ∧ (∀ order, nameToFeature (Set_ order st).1 = nameToFeature st)
  ∧ (∀ order, nameToFeature (Reset order st) = nameToFeature st).
Proof.
  intros [_ Hn _]%reachable_inv. split; [|split].
  - intros n f. rewrite Hn. apply name_table_lookup.
  - intros order. by rewrite Set_fst.
  - done.
Qed.

Lemma nameToFeature_inverts_String_witness :
  let st := (Set_ (map_to_list mixed_call) registry0).1 in
  (∀ n f, nameToFeature st !! n = Some f
          ↔ f ∈ vocabulary ∧ n = FeatureFlag_String f)
  ∧ (∀ order, nameToFeature (Set_ order st).1 = nameToFeature st)
  ∧ (∀ order, nameToFeature (Reset order st) = nameToFeature st).
Proof.
  apply (nameToFeature_inverts_String
           (Set_ (map_to_list mixed_call) registry0).1).
  apply (reachable_Set registry0 mixed_call).
  - apply registry0_reachable.
  - apply range_of_map_to_list.
Defined.

(** ** [Reset] *)

(** X3: from every reachable registry, [Reset] leaves exactly the registry
    that [init] left at start-up: all three maps, not only the values
    [Enabled] reports. *)
Theorem Reset_is_startup_registry
    (st : registry) (reset_order init_order : list (FeatureFlag * bool)) :
  reachable st → range_of (initial st) reset_order →
  range_of features_literal init_order →
  Reset reset_order st = init init_order package_vars.
Proof.
  intros Hst Hreset Hinit. apply reachable_eq.
  - by apply reachable_Reset.
  - by apply reachable_init.
  - intros F [d Hd]%vocabulary_lookup.
    rewrite Reset_features, init_package_vars by done.
    destruct (reachable_inv st Hst) as [-> _ _].
    cbn [features]. rewrite Hd. by apply lookup_union_Some_l.
Qed.

Lemma Reset_is_startup_registry_witness :
  Reset (map_to_list features_literal)
    (Set_ (map_to_list mixed_call) registry0).1
  = init (map_to_list features_literal) package_vars.
Proof.
  apply (Reset_is_startup_registry (Set_ (map_to_list mixed_call) registry0).1).
  - apply (reachable_Set registry0 mixed_call).
    + apply registry0_reachable.
    + apply range_of_map_to_list.
  - unfold range_of. by vm_compute.
  - apply range_of_map_to_list.
Defined.

(** ** [Set] *)

(** X4: in a reachable registry the outcome of [Set] does not depend on the
    order in which the loop visits the argument: the registry it leaves is
    the same, it fails in the one order exactly when it fails in the other,
    and the two [unknown] slices hold the same names. *)
Theorem Set_order_independent
    (st : registry) (featureSet : gmap string bool) order1 order2 :
  reachable st → range_of featureSet order1 → range_of featureSet order2 →
  (Set_ order1 st).1 = (Set_ order2 st).1
  ∧ (is_Some (Set_ order1 st).2 ↔ is_Some (Set_ order2 st).2)
  ∧ (Set_loop order1 st).2 ≡ₚ (Set_loop order2 st).2.
Proof.
  intros Hst H1 H2.
  assert ((Set_ order1 st).1 = (Set_ order2 st).1) as Heq.
  { apply reachable_eq.
    - by apply (reachable_Set st featureSet).
    - by apply (reachable_Set st featureSet).
    - intros F HF.
      by rewrite !(Set_lookup st featureSet) by done. }
  split; [done|]. split.
  - rewrite !(Set_fails_iff st featureSet) by done. by rewrite Heq.
  - rewrite !Set_loop_unfold. cbn. apply unresolved_Permutation.
    unfold range_of in *. by rewrite H1, H2.
Qed.

Lemma Set_order_independent_witness :
  (Set_ (map_to_list mixed_call) registry0).1
  = (Set_ (reverse (map_to_list mixed_call)) registry0).1
  ∧ (is_Some (Set_ (map_to_list mixed_call) registry0).2
     ↔ is_Some (Set_ (reverse (map_to_list mixed_call)) registry0).2)
  ∧ (Set_loop (map_to_list mixed_call) registry0).2
    ≡ₚ (Set_loop (reverse (map_to_list mixed_call)) registry0).2.
Proof.
  apply (Set_order_independent registry0 mixed_call).
  - apply registry0_reachable.
  - apply range_of_map_to_list.
  - unfold range_of. apply reverse_Permutation.
Defined.

(** X5: in a reachable registry two [Set] calls in a row leave the registry
    that a single [Set] leaves when given both arguments merged, the second
    call's entries taking precedence on the names they share. *)
Theorem Set_twice_is_Set_merged
    (st : registry) (featureSet1 featureSet2 : gmap string bool)
    order1 order2 order :
  reachable st →
  range_of featureSet1 order1 → range_of featureSet2 order2 →
  range_of (featureSet2 ∪ featureSet1) order →
  (Set_ order2 (Set_ order1 st).1).1 = (Set_ order st).1.
Proof.
  intros Hst H1 H2 H12.
  assert (reachable (Set_ order1 st).1) as Hst1
    by by apply (reachable_Set st featureSet1).
  apply reachable_eq.
  - by apply (reachable_Set _ featureSet2).
  - by apply (reachable_Set st (featureSet2 ∪ featureSet1)).
  - intros F HF.
    rewrite (Set_lookup _ featureSet2) by done.
    rewrite (Set_lookup st featureSet1) by done.
    rewrite (Set_lookup st (featureSet2 ∪ featureSet1)) by done.
    rewrite lookup_union.
    by destruct (featureSet2 !! FeatureFlag_String F),
      (featureSet1 !! FeatureFlag_String F).
Qed.

Lemma Set_twice_is_Set_merged_witness :
  (Set_ (map_to_list lenient_call)
     (Set_ (map_to_list mixed_call) registry0).1).1
  = (Set_ (map_to_list (lenient_call ∪ mixed_call)) registry0).1.
Proof.
  apply (Set_twice_is_Set_merged registry0 mixed_call lenient_call).
  - apply registry0_reachable.
  - apply range_of_map_to_list.
  - apply range_of_map_to_list.
  - apply range_of_map_to_list.
Defined.

(** X6: in a reachable registry, repeating a [Set] call with the same
    argument changes nothing more, and the repeated call fails exactly when
    the first one did. *)
Theorem Set_idempotent
    (st : registry) (featureSet : gmap string bool) order1 order2 :
  reachable st → range_of featureSet order1 → range_of featureSet order2 →
  (Set_ order2 (Set_ order1 st).1).1 = (Set_ order1 st).1
  ∧ (is_Some (Set_ order2 (Set_ order1 st).1).2 ↔ is_Some (Set_ order1 st).2).
Proof.
  intros Hst H1 H2.
  assert (reachable (Set_ order1 st).1) as Hst1
    by by apply (reachable_Set st featureSet).
  assert ((Set_ order2 (Set_ order1 st).1).1 = (Set_ order1 st).1) as Heq.
  { apply reachable_eq; [by apply (reachable_Set _ featureSet)|done|].
    intros F HF.
    rewrite (Set_lookup _ featureSet order2) by done.
    rewrite (Set_lookup st featureSet order1) by done.
    by destruct (featureSet !! FeatureFlag_String F). }
  split; [done|].
  rewrite !(Set_fails_iff _ featureSet) by done. rewrite Heq.
  by rewrite (Set_fst order1 st).
Qed.

Lemma Set_idempotent_witness :
  (Set_ (map_to_list mixed_call)
     (Set_ (map_to_list mixed_call) registry0).1).1
  = (Set_ (map_to_list mixed_call) registry0).1
  ∧ (is_Some (Set_ (map_to_list mixed_call)
                (Set_ (map_to_list mixed_call) registry0).1).2
     ↔ is_Some (Set_ (map_to_list mixed_call) registry0).2).
Proof.
  apply (Set_idempotent registry0 mixed_call).
  - apply registry0_reachable.
  - apply range_of_map_to_list.
  - apply range_of_map_to_list.
Defined.

(** X7: once [AllowUnrecognizedFeatures] is on in a reachable registry, a
    [Set] call returns no error, whatever unknown names its argument holds,
    unless that same call turns the flag off. *)
Theorem Set_lenient_persists
    (st : registry) (featureSet : gmap string bool) order :
  reachable st → range_of featureSet order →
  Enabled AllowUnrecognizedFeatures st = Returns true →
  featureSet !! FeatureFlag_String AllowUnrecognizedFeatures ≠ Some false →
  (Set_ order st).2 = None.
Proof.
  intros Hst Horder Hon Hkeep.
  assert (features st !! AllowUnrecognizedFeatures = Some true) as Hcur.
  { unfold Enabled in Hon.
    destruct (features st !! AllowUnrecognizedFeatures); congruence. }
  rewrite Set_snd. unfold index.
  rewrite (Set_lookup st featureSet order)
    by (try done; apply AllowUnrecognizedFeatures_vocabulary).
  rewrite Hcur.
  destruct (featureSet !! FeatureFlag_String AllowUnrecognizedFeatures)
    as [[]|]; cbn; by rewrite ?andb_false_r.
Qed.

Lemma Set_lenient_persists_witness :
  (Set_ (map_to_list mixed_call)
     (Set_ [("AllowUnrecognizedFeatures", true)] registry0).1).2 = None.
Proof.
  apply (Set_lenient_persists
           (Set_ [("AllowUnrecognizedFeatures", true)] registry0).1 mixed_call).
  - apply (reachable_Set registry0 {[ "AllowUnrecognizedFeatures" := true ]}).
    + apply registry0_reachable.
    + unfold range_of. by rewrite map_to_list_singleton.
  - apply range_of_map_to_list.
  - by vm_compute.
  - by vm_compute.
Defined.

(** X8: [Reset] turns the check for unknown names back on: from every
    reachable registry, a [Set] call right after [Reset] whose argument holds
    a name the table does not resolve fails, unless that same call maps the
    name of [AllowUnrecognizedFeatures] to [true]. *)
Theorem Reset_restores_strictness
    (st : registry) (reset_order : list (FeatureFlag * bool))
    (featureSet : gmap string bool) order :
  reachable st → range_of (initial st) reset_order →
  range_of featureSet order →
  (∃ n, n ∈ dom featureSet ∧ nameToFeature st !! n = None) →
  featureSet !! FeatureFlag_String AllowUnrecognizedFeatures ≠ Some true →
  is_Some (Set_ order (Reset reset_order st)).2.
Proof.
  intros Hst Hreset Horder Hunknown Hstrict.
  assert (reachable (Reset reset_order st)) as Hst' by by apply reachable_Reset.
  apply (Set_fails_iff _ featureSet); [done|]. split; [done|].
  unfold index.
  rewrite (Set_lookup _ featureSet order)
    by (try done; apply AllowUnrecognizedFeatures_vocabulary).
  rewrite Reset_features by done.
  destruct (reachable_inv st Hst) as [-> _ _].
  rewrite (lookup_union_Some_l _ _ _ false) by reflexivity.
  by destruct (featureSet !! FeatureFlag_String AllowUnrecognizedFeatures)
    as [[]|].
Qed.

Lemma Reset_restores_strictness_witness :
  is_Some
    (Set_ (map_to_list mixed_call)
       (Reset (map_to_list features_literal)
          (Set_ (map_to_list lenient_call) registry0).1)).2.
Proof.
  apply (Reset_restores_strictness
           (Set_ (map_to_list lenient_call) registry0).1
           (map_to_list features_literal) mixed_call).
  - apply (reachable_Set registry0 lenient_call).
    + apply registry0_reachable.
    + apply range_of_map_to_list.
  - unfold range_of. by vm_compute.
  - apply range_of_map_to_list.
  - exists "bogus". split.
    + apply (bool_decide_unpack _). by vm_compute.
    + by vm_compute.
  - by vm_compute.
Defined.

(** X9: a [Set] call whose argument only repeats what the registry already
    holds (every name resolves, to a flag that has the given value) returns
    no error and leaves the registry as it was; in particular a call with an
    empty argument.  No assumption on the registry. *)
Theorem Set_same_values_noop
    (st : registry) (featureSet : gmap string bool) order :
  range_of featureSet order →
  (∀ n v, featureSet !! n = Some v →
     ∃ f, nameToFeature st !! n = Some f ∧ features st !! f = Some v) →
  Set_ order st = (st, None).
Proof.
  intros Horder Hsame. unfold Set_. rewrite Set_loop_unfold.
  assert (unresolved (nameToFeature st) order = []) as ->.
  { destruct (unresolved (nameToFeature st) order) as [|n l] eqn:Hu; [done|].
    assert (n ∈ unresolved (nameToFeature st) order) as Hn by (rewrite Hu; left).
    apply elem_of_unresolved in Hn as [Hn Hnone].
    apply (range_of_keys featureSet order) in Hn; [|done].
    apply elem_of_dom in Hn as [v Hv].
    destruct (Hsame n v Hv) as (f & Hf & _). congruence. }
  rewrite foldl_assign_same.
  - cbn. by destruct st.
  - intros f v (n & Hin & Hf)%elem_of_resolved.
    apply (range_of_elem_of featureSet order) in Hin; [|done].
    destruct (Hsame n v Hin) as (f' & Hf' & Hv). congruence.
Qed.

Lemma Set_same_values_noop_witness :
  Set_ [("SHA1CSRs", true)] registry0 = (registry0, None).
Proof.
  apply (Set_same_values_noop registry0 {[ "SHA1CSRs" := true ]}).
  - unfold range_of. by rewrite map_to_list_singleton.
  - intros n v [<- <-]%lookup_singleton_Some.
    exists SHA1CSRs. split; by vm_compute.
Defined.

(** ** [Set] then [Enabled] *)

(** X10: in a reachable registry, after a [Set] call with any argument,
    [Enabled F] returns the value the argument gives under the name of [F]
    when it has one, and otherwise what [Enabled F] returned before the
    call, for every flag [F] of the vocabulary. *)
Theorem Enabled_after_Set
    (st : registry) (featureSet : gmap string bool) order (F : FeatureFlag) :
  reachable st → range_of featureSet order → F ∈ vocabulary →
  Enabled F (Set_ order st).1 =
  match featureSet !! FeatureFlag_String F with
  | Some v => Returns v
  | None => Enabled F st
  end.
Proof.
  intros Hst Horder HF. unfold Enabled.
  rewrite (Set_lookup st featureSet order) by done.
  by destruct (featureSet !! FeatureFlag_String F).
Qed.

Lemma Enabled_after_Set_witness :
  Enabled ECDSAForAll (Set_ (map_to_list mixed_call) registry0).1 =
  match mixed_call !! FeatureFlag_String ECDSAForAll with
  | Some v => Returns v
  | None => Enabled ECDSAForAll registry0
  end.
Proof.
  apply (Enabled_after_Set registry0 mixed_call).
  - apply registry0_reachable.
  - apply range_of_map_to_list.
  - apply vocabulary_range. unfold ECDSAForAll. lia.
Defined.
